(** * PersistentFileLog: a line-separated flat-file log behind a serial queue

    Shallow embedding of [expo.modules.core.logging.PersistentFileLog] and of
    [PersistentFileLogSerialDispatchQueue] (Kotlin).  The file at [filePath]
    is the only piece of the file system the class touches, so the device is
    modelled as that one optional text together with the I/O failures the
    platform may raise.  Text is written and read back with the same
    charset; the model identifies the stored bytes with the text, so the
    size of the file is zero exactly when its text is empty. *)

From Stdlib Require Import String Ascii List ZArith Bool Lia.
Import ListNotations.
Local Open Scope list_scope.
Local Open Scope string_scope.

(** ** Throwables

    [kotlin.Error] is [java.lang.Error]; [java.io.IOException] is an
    [Exception], hence a [Throwable] that is not an [Error].  [ErrorOf] is
    the constructor call [Error(e)] that wraps a cause. *)

Inductive Throwable : Type :=
| IOException (msg : string)
| AnError (e : Error)
with Error : Type :=
| OutOfMemoryError
| ErrorOf (cause : Throwable).

(** ** The device *)

Inductive CreateFailure : Type :=
| CreateReturnsFalse
| CreateThrows (msg : string).

Record Faults : Type := mkFaults {
  create_fault : option CreateFailure; (* File.createNewFile *)
  size_fault : bool;                   (* inputStream() / channel.size() throws IOException *)
  append_fault : option Throwable;     (* File.appendText *)
  read_fault : option Throwable;       (* File.readText *)
  write_fault : option Throwable;      (* File.writeText *)
  delete_fault : bool                  (* File.delete returns false *)
}.

Definition no_faults : Faults := mkFaults None false None None None false.

(** A completion handler is identified by a number; calling it is recorded
    in [invoked], oldest call first. *)
Definition Handler := nat.

Record State : Type := mkState {
  disk : option string;
  faults : Faults;
  invoked : list (Handler * option Error)
}.

Definition set_disk (d : option string) (s : State) : State :=
  mkState d (faults s) (invoked s).

Definition fresh (f : Faults) : State := mkState None f [].

(** ** Computations that may throw *)

Inductive Outcome (A : Type) : Type :=
| Ok (a : A)
| Throw (t : Throwable).
Arguments Ok {A} a.
Arguments Throw {A} t.

Definition M (A : Type) : Type := State -> Outcome A * State.

Definition ret {A} (a : A) : M A := fun s => (Ok a, s).

Definition throw {A} (t : Throwable) : M A := fun s => (Throw t, s).

Definition bind {A B} (m : M A) (k : A -> M B) : M B :=
  fun s => match m s with
           | (Ok a, s') => k a s'
           | (Throw t, s') => (Throw t, s')
           end.

Notation "x <- m ;; k" := (bind m (fun x => k))
  (at level 61, m at next level, right associativity).
Notation "m ;;; k" := (bind m (fun _ => k))
  (at level 61, right associativity).

(** [try { body } catch (e: Error) { handler(e) }] *)
Definition try_catch_Error {A} (body : M A) (handler : Error -> M A) : M A :=
  fun s => match body s with
           | (Throw (AnError e), s') => handler e s'
           | r => r
           end.

(** [try { body } catch (e: Throwable) { handler(e) }] *)
Definition try_catch_Throwable {A} (body : M A) (handler : Throwable -> M A) : M A :=
  fun s => match body s with
           | (Throw t, s') => handler t s'
           | r => r
           end.

(** [try { body } catch (e: IOException) { handler(e) }] *)
Definition try_catch_IOException {A} (body : M A) (handler : string -> M A) : M A :=
  fun s => match body s with
           | (Throw (IOException m), s') => handler m s'
           | r => r
           end.

(** ** [java.io.File] primitives on [filePath] *)

Definition exists_ : M bool :=
  fun s => (Ok (match disk s with Some _ => true | None => false end), s).

Definition createNewFile : M bool :=
  fun s => match create_fault (faults s) with
           | Some CreateReturnsFalse => (Ok false, s)
           | Some (CreateThrows m) => (Throw (IOException m), s)
           | None => match disk s with
                     | Some _ => (Ok false, s)
                     | None => (Ok true, set_disk (Some "") s)
                     end
           end.

(** [file.inputStream().use { it.channel.size() }] *)
Definition channel_size : M Z :=
  fun s => if size_fault (faults s)
           then (Throw (IOException "inaccessible"), s)
           else match disk s with
                | Some c => (Ok (Z.of_nat (String.length c)), s)
                | None => (Throw (IOException "no such file"), s)
                end.

Definition appendText (text : string) : M unit :=
  fun s => match append_fault (faults s) with
           | Some t => (Throw t, s)
           | None => (Ok tt, set_disk (Some (match disk s with
                                             | Some c => c ++ text
                                             | None => text
                                             end)) s)
           end.

Definition readText : M string :=
  fun s => match read_fault (faults s) with
           | Some t => (Throw t, s)
           | None => match disk s with
                     | Some c => (Ok c, s)
                     | None => (Throw (IOException "no such file"), s)
                     end
           end.

Definition writeText (text : string) : M unit :=
  fun s => match write_fault (faults s) with
           | Some t => (Throw t, s)
           | None => (Ok tt, set_disk (Some text) s)
           end.

Definition delete : M bool :=
  fun s => if delete_fault (faults s) then (Ok false, s)
           else match disk s with
                | Some _ => (Ok true, set_disk None s)
                | None => (Ok false, s)
                end.

(** [completionHandler.invoke(e)] *)
Definition invoke (h : Handler) (e : option Error) : M unit :=
  fun s => (Ok tt, mkState (disk s) (faults s) (invoked s ++ [(h, e)])%list).

(** ** Kotlin text helpers *)

Definition newline : ascii := "010"%char.
Definition NL : string := String newline EmptyString.

(** [text.split("\n")]: every piece between separators is kept, the empty
    ones too. *)
Fixpoint split (text : string) : list string :=
  match text with
  | EmptyString => [EmptyString]
  | String c rest =>
      if Ascii.eqb c newline then EmptyString :: split rest
      else match split rest with
           | w :: ws => String c w :: ws
           | [] => [String c EmptyString]
           end
  end.

(** [entries.joinToString("\n")] *)
Fixpoint joinToString (sep : string) (entries : list string) : string :=
  match entries with
  | [] => EmptyString
  | [e] => e
  | e :: rest => e ++ sep ++ joinToString sep rest
  end.

(** ** Private functions of [PersistentFileLog] *)

Definition ensureFileExists : M unit :=
  e <- exists_ ;;
  if negb e then
    success <- createNewFile ;;
    if negb success then throw (IOException "Unable to create file at path")
    else ret tt
  else ret tt.

Definition getFileSize : M Z :=
  e <- exists_ ;;
  if negb e then ret 0%Z
  else try_catch_IOException channel_size (fun _ => ret 0%Z).

Definition appendTextToFile (text : string) : M unit := appendText text.

Definition stringToList (text : string) : list string :=
  match String.length text with
  | O => []
  | _ => split text
  end.

Definition readFileLinesSync : M (list string) :=
  text <- readText ;; ret (stringToList text).

Definition writeFileLinesSync (entries : list string) : M unit :=
  writeText (joinToString NL entries).

Definition deleteFileSync : M unit :=
  e <- exists_ ;;
  if e then delete ;;; ret tt else ret tt.

(** ** Public functions *)

Definition readEntries : M (list string) :=
  sz <- getFileSize ;;
  if Z.eqb 0 sz then ret [] else readFileLinesSync.

(** The block that [appendEntry] hands to the queue. *)
Definition appendEntry (entry : string) (completionHandler : Handler) : M unit :=
  try_catch_Error
    (ensureFileExists ;;;
     sz <- getFileSize ;;
     let text := if Z.eqb sz 0 then entry else NL ++ entry in
     appendTextToFile text ;;;
     invoke completionHandler None)
    (fun e => invoke completionHandler (Some e)).

(** The block that [filterEntries] hands to the queue. *)
Definition filterEntries (filter : string -> bool) (completionHandler : Handler) : M unit :=
  try_catch_Throwable
    (ensureFileExists ;;;
     contents <- readFileLinesSync ;;
     let reducedContents := List.filter filter contents in
     writeFileLinesSync reducedContents ;;;
     invoke completionHandler None)
    (fun e => invoke completionHandler (Some (ErrorOf e))).

(** The block that [clearEntries] hands to the queue. *)
Definition clearEntries (completionHandler : Handler) : M unit :=
  try_catch_Error
    (deleteFileSync ;;;
     invoke completionHandler None)
    (fun e => invoke completionHandler (Some e)).

(** ** The serial dispatch queue

    [Channel<Block>] is a first-in first-out buffer; [add] sends a block to
    it and the coroutine [sc] runs [while (true) { channel.receive()() }]:
    it takes the oldest block, runs it to its end and only then receives
    again.  A throwable that leaves a block leaves the loop with it, so the
    coroutine fails and nothing receives from the channel any more. *)

Definition Block := M unit.

Inductive Job : Type :=
| Active
| Cancelled
| Failed (t : Throwable).

(** The loop of [sc] over the blocks that are in the channel: the final
    job, the blocks left in the channel and the final state. *)
Fixpoint run_worker (blocks : list Block) (s : State) : Job * list Block * State :=
  match blocks with
  | [] => (Active, [], s)
  | b :: rest =>
      match b s with
      | (Ok _, s') => run_worker rest s'
      | (Throw t, s') => (Failed t, rest, s')
      end
  end.

(** The three mutating requests, as data. *)
Inductive Operation : Type :=
| Append (entry : string) (completionHandler : Handler)
| Filter (filter : string -> bool) (completionHandler : Handler)
| Clear (completionHandler : Handler).

Definition block_of (op : Operation) : Block :=
  match op with
  | Append entry h => appendEntry entry h
  | Filter f h => filterEntries f h
  | Clear h => clearEntries h
  end.

(** Submitting [ops] in this order and letting the worker drain the channel. *)
Definition submit_all (ops : list Operation) (s : State) : Job * list Block * State :=
  run_worker (map block_of ops) s.

Definition job_of (r : Job * list Block * State) : Job := fst (fst r).
Definition pending_of (r : Job * list Block * State) : list Block := snd (fst r).
Definition state_of (r : Job * list Block * State) : State := snd r.

(** Appending [entries] one after the other; the i-th request carries
    handler [h0 + i]. *)
Fixpoint appends_from (h0 : Handler) (entries : list string) : list Operation :=
  match entries with
  | [] => []
  | e :: rest => Append e h0 :: appends_from (S h0) rest
  end.

(** *** The queue with its callers

    [add] may be called from any thread at any time; the worker is one
    coroutine.  A system state records the order in which the sends reached
    the channel ([submitted]), the buffer, the block the worker is in, and
    the blocks it has finished.  Callers touch nothing but the channel, so
    the only interleavings that matter are those of sends with the worker's
    receive and with the end of a block. *)

Record System : Type := mkSystem {
  submitted : list Operation;
  channel : list Operation;
  running : option Operation;
  executed : list Operation;
  sc : Job;
  device : State
}.

Definition start (s0 : State) : System := mkSystem [] [] None [] Active s0.

(** What can happen next: a caller's [add] reaches the channel, the worker
    receives, the worker comes to the end of the block it is in, or
    somebody calls [stop].  An event that cannot take place in the present
    state (a full buffer, an empty channel, a worker that is busy or gone)
    leaves the state as it is.  [capacity] is the size of the buffer that
    [Channel.BUFFERED] stands for, which kotlinx fixes at run time: a sender
    that finds the buffer full waits inside [runBlocking] until there is
    room.  [next] lets the worker receive only while its job is active: of
    the runs in which [stop] is called it has those where the worker takes
    nothing afterwards, as when [stop] finds it waiting on an empty channel;
    [next_draining], further down, has the other runs too. *)
Inductive Event : Type :=
| CallAdd (op : Operation)
| WorkerReceive
| WorkerFinish
| CallStop.

Definition next (capacity : nat) (ev : Event) (sy : System) : System :=
  match ev with
  | CallAdd op =>
      if Nat.ltb (List.length (channel sy)) capacity
      then mkSystem (submitted sy ++ [op]) (channel sy ++ [op])
                    (running sy) (executed sy) (sc sy) (device sy)
      else sy
  | WorkerReceive =>
      match sc sy, running sy, channel sy with
      | Active, None, op :: rest =>
          mkSystem (submitted sy) rest (Some op) (executed sy) (sc sy) (device sy)
      | _, _, _ => sy
      end
  | WorkerFinish =>
      match running sy with
      | Some op =>
          match block_of op (device sy) with
          | (Ok _, s') =>
              mkSystem (submitted sy) (channel sy) None (executed sy ++ [op]) (sc sy) s'
          | (Throw t, s') =>
              mkSystem (submitted sy) (channel sy) None (executed sy ++ [op]) (Failed t) s'
          end
      | None => sy
      end
  | CallStop =>
      match sc sy with
      | Active => mkSystem (submitted sy) (channel sy) (running sy) (executed sy)
                           Cancelled (device sy)
      | _ => sy
      end
  end.

Definition run_schedule (capacity : nat) (evs : list Event) (sy : System) : System :=
  fold_left (fun sy ev => next capacity ev sy) evs sy.

(** Running operations one at a time, each to its end, whatever it returns. *)
Fixpoint run_in_order (ops : list Operation) (s : State) : State :=
  match ops with
  | [] => s
  | op :: rest => run_in_order rest (snd (block_of op s))
  end.

Definition in_flight (sy : System) : list Operation :=
  match running sy with Some op => [op] | None => [] end.

(** ** Predicates on text used in the statements *)

Fixpoint no_newline (text : string) : bool :=
  match text with
  | EmptyString => true
  | String c rest => negb (Ascii.eqb c newline) && no_newline rest
  end.

Fixpoint ends_with_newline (text : string) : bool :=
  match text with
  | EmptyString => false
  | String c EmptyString => Ascii.eqb c newline
  | String _ rest => ends_with_newline rest
  end.

Definition is_empty (text : string) : bool :=
  match text with EmptyString => true | _ => false end.

(** The text of the file, an absent file holding none. *)
Definition text_of (d : option string) : string :=
  match d with Some c => c | None => EmptyString end.

(** What [appendEntry] leaves in the file when nothing fails. *)
Definition appended (d : option string) (entry : string) : string :=
  if is_empty (text_of d) then entry else text_of d ++ NL ++ entry.

(** Entries with the empty ones at the front removed. *)
Fixpoint drop_leading_empty (entries : list string) : list string :=
  match entries with
  | e :: rest => if is_empty e then drop_leading_empty rest else entries
  | [] => []
  end.

(** The file after a run of appends. *)
Fixpoint appends (d : option string) (entries : list string) : option string :=
  match entries with
  | [] => d
  | e :: rest => appends (Some (appended d e)) rest
  end.

(** The calls [h0, h0+1, ...], each with [null]. *)
Definition completions (h0 : Handler) (n : nat) : list (Handler * option Error) :=
  map (fun h => (h, None)) (seq h0 n).

(** Whatever newline-free entries are
    appended to a log that did not exist, [readEntries] gives them back:
    the property a log without loss would have. *)
Definition reads_back (entries : list string) : Prop :=
  fst (readEntries (state_of (submit_all (appends_from 0 entries) (fresh no_faults))))
  = Ok entries.

(** Devices on which one access fails: [createNewFile] returns false, and
    [delete] returns false. *)
Definition create_denied : Faults := mkFaults (Some CreateReturnsFalse) false None None None false.
Definition delete_denied : Faults := mkFaults None false None None None true.

(** The worker is serial: what it has finished, the block it is in and the
    buffer make up, in this order, the sequence of sends; and the device is
    in the state that running the finished operations one after the other,
    from the start, leaves it in. *)
Definition serial (s0 : State) (sy : System) : Prop :=
  (executed sy ++ in_flight sy ++ channel sy)%list = submitted sy /\
  device sy = run_in_order (executed sy) s0.

(** ** Further notions used in the statements *)

(** What [readFileLinesSync] makes of the text [writeFileLinesSync] wrote
    for [entries]: the list holding only the empty entry is written as the
    empty text, which reads as no entry. *)
Definition as_read (entries : list string) : list string :=
  match entries with
  | [EmptyString] => []
  | _ => entries
  end.

Fixpoint count_newlines (text : string) : nat :=
  match text with
  | EmptyString => O
  | String c rest => (if Ascii.eqb c newline then 1 else 0) + count_newlines rest
  end.

Definition handler_of (op : Operation) : Handler :=
  match op with
  | Append _ h => h
  | Filter _ h => h
  | Clear h => h
  end.

Definition is_append (op : Operation) : bool :=
  match op with
  | Append _ _ => true
  | _ => false
  end.

(** The worker takes a block and runs it to its end, [n] times over. *)
Fixpoint drain (n : nat) : list Event :=
  match n with
  | O => []
  | S m => WorkerReceive :: WorkerFinish :: drain m
  end.

(** [Channel.receive] looks at cancellation only when it has to wait, so a
    worker cancelled by [stop] may go on taking blocks for as long as it
    finds one in the buffer.  [next_draining] is [next] with a receive that
    a cancelled worker can still do. *)
Definition next_draining (capacity : nat) (ev : Event) (sy : System) : System :=
  match ev with
  | WorkerReceive =>
      match sc sy, running sy, channel sy with
      | Failed _, _, _ => sy
      | _, None, op :: rest =>
          mkSystem (submitted sy) rest (Some op) (executed sy) (sc sy) (device sy)
      | _, _, _ => sy
      end
  | _ => next capacity ev sy
  end.

Definition run_schedule_draining (capacity : nat) (evs : list Event) (sy : System)
  : System :=
  fold_left (fun sy ev => next_draining capacity ev sy) evs sy.

(** The device has no failures and the worker has not failed. *)
Definition unfailing (sy : System) : Prop :=
  faults (device sy) = no_faults /\ forall t, sc sy <> Failed t.

(** * Properties *)

(** ** Splitting and joining *)

Section Text.

Lemma split_not_nil (text : string) : split text <> [].
Proof.
  destruct text as [|c rest]; simpl; [discriminate|].
  destruct (Ascii.eqb c newline); [discriminate|].
  destruct (split rest); discriminate.
Qed.

Lemma split_no_newline (e : string) : no_newline e = true -> split e = [e].
Proof.
  induction e as [|c rest IH]; simpl; intros H; [reflexivity|].
  apply andb_true_iff in H as [Hc Hrest].
  apply negb_true_iff in Hc. rewrite Hc, (IH Hrest). reflexivity.
Qed.

Lemma split_app_newline (a b : string) :
  split (a ++ NL ++ b) = (split a ++ split b)%list.
Proof.
  induction a as [|c rest IH]; simpl.
  - reflexivity.
  - destruct (Ascii.eqb c newline).
    + simpl in IH. rewrite IH. reflexivity.
    + simpl in IH. rewrite IH.
      destruct (split rest) as [|w ws] eqn:E.
      * exfalso. exact (split_not_nil rest E).
      * reflexivity.
Qed.

Lemma joinToString_cons (sep e : string) (rest : list string) :
  rest <> [] -> joinToString sep (e :: rest) = e ++ sep ++ joinToString sep rest.
Proof. destruct rest; [congruence | reflexivity]. Qed.

Lemma joinToString_split (text : string) : joinToString NL (split text) = text.
Proof.
  induction text as [|c rest IH]; simpl; [reflexivity|].
  destruct (Ascii.eqb c newline) eqn:Ec.
  - apply Ascii.eqb_eq in Ec. subst c.
    rewrite joinToString_cons by apply split_not_nil.
    rewrite IH. reflexivity.
  - destruct (split rest) as [|w ws] eqn:E.
    + exfalso. exact (split_not_nil rest E).
    + destruct ws as [|w' ws'].
      * simpl in *. congruence.
      * change (joinToString NL (String c w :: w' :: ws'))
          with (String c (w ++ NL ++ joinToString NL (w' :: ws'))).
        f_equal. exact IH.
Qed.

Lemma stringToList_nonempty (text : string) :
  is_empty text = false -> stringToList text = split text.
Proof. destruct text; [discriminate | reflexivity]. Qed.

Lemma joinToString_stringToList (text : string) :
  joinToString NL (stringToList text) = text.
Proof.
  destruct text as [|c rest]; [reflexivity|].
  rewrite stringToList_nonempty by reflexivity. apply joinToString_split.
Qed.

Lemma filter_all (A : Type) (l : list A) : List.filter (fun _ => true) l = l.
Proof. induction l as [|x l IH]; simpl; [|rewrite IH]; reflexivity. Qed.

Lemma filter_none (A : Type) (l : list A) : List.filter (fun _ => false) l = [].
Proof. induction l as [|x l IH]; simpl; [reflexivity | exact IH]. Qed.

Lemma is_empty_app (a b : string) : is_empty a = false -> is_empty (a ++ b) = false.
Proof. destruct a; [discriminate | reflexivity]. Qed.

Lemma ends_with_newline_app (a b : string) :
  is_empty b = false -> ends_with_newline (a ++ b) = ends_with_newline b.
Proof.
  intros Hb. induction a as [|c rest IH]; simpl; [reflexivity|].
  rewrite <- IH. destruct (rest ++ b) eqn:E; [|reflexivity].
  destruct rest; simpl in E; [subst b|]; discriminate.
Qed.

Lemma no_newline_not_ends (e : string) :
  no_newline e = true -> ends_with_newline e = false.
Proof.
  induction e as [|c rest IH]; simpl; intros H; [reflexivity|].
  apply andb_true_iff in H as [Hc Hrest]. apply negb_true_iff in Hc.
  destruct rest; [exact Hc | exact (IH Hrest)].
Qed.

Lemma ends_with_newline_appended (d : option string) (entry : string) :
  ends_with_newline (if is_empty (text_of d) then entry else text_of d ++ NL ++ entry)
  = ends_with_newline entry || (is_empty entry && negb (is_empty (text_of d))).
Proof.
  destruct (is_empty (text_of d)) eqn:Ed; simpl negb.
  - rewrite andb_false_r, orb_false_r. reflexivity.
  - rewrite andb_true_r, ends_with_newline_app by reflexivity.
    destruct entry as [|c rest]; [reflexivity|].
    simpl is_empty. rewrite orb_false_r. reflexivity.
Qed.

End Text.

(** ** The operations on a device without failures *)

Section NoFaults.

Variable i : list (Handler * option Error).

Lemma getFileSize_no_faults (d : option string) :
  getFileSize (mkState d no_faults i)
  = (Ok (Z.of_nat (String.length (text_of d))), mkState d no_faults i).
Proof. destruct d; reflexivity. Qed.

Lemma size_zero_iff_empty (text : string) :
  Z.eqb (Z.of_nat (String.length text)) 0 = is_empty text.
Proof. destruct text; reflexivity. Qed.

Lemma readEntries_no_faults (d : option string) :
  readEntries (mkState d no_faults i)
  = (Ok (stringToList (text_of d)), mkState d no_faults i).
Proof. destruct d as [[|c rest]|]; reflexivity. Qed.

Lemma appendEntry_no_faults (d : option string) (entry : string) (h : Handler) :
  appendEntry entry h (mkState d no_faults i)
  = (Ok tt, mkState (Some (appended d entry)) no_faults (i ++ [(h, None)])%list).
Proof. destruct d as [[|c rest]|]; reflexivity. Qed.

Lemma filterEntries_no_faults (d : option string) (f : string -> bool) (h : Handler) :
  filterEntries f h (mkState d no_faults i)
  = (Ok tt,
     mkState (Some (joinToString NL (List.filter f (stringToList (text_of d)))))
             no_faults (i ++ [(h, None)])%list).
Proof. destruct d; reflexivity. Qed.

Lemma clearEntries_no_faults (d : option string) (h : Handler) :
  clearEntries h (mkState d no_faults i)
  = (Ok tt, mkState None no_faults (i ++ [(h, None)])%list).
Proof. destruct d; reflexivity. Qed.

End NoFaults.

Section Appends.

Lemma submit_appends (entries : list string) :
  forall (d : option string) (i : list (Handler * option Error)) (h0 : Handler),
    submit_all (appends_from h0 entries) (mkState d no_faults i)
    = (Active, [],
       mkState (appends d entries) no_faults
               (i ++ completions h0 (List.length entries))%list).
Proof.
  induction entries as [|e rest IH]; intros d i h0.
  - unfold submit_all, completions. simpl. rewrite app_nil_r. reflexivity.
  - unfold submit_all in *. simpl.
    rewrite appendEntry_no_faults, IH.
    unfold completions. simpl. rewrite <- app_assoc. reflexivity.
Qed.

Lemma appended_not_empty (d : option string) (e : string) :
  is_empty (text_of d) = false -> is_empty (appended d e) = false.
Proof.
  intros H. unfold appended. rewrite H. apply is_empty_app. exact H.
Qed.

(** Once the file holds text, every further entry is one more line. *)
Lemma lines_after_appends (entries : list string) :
  forall c : string,
    is_empty c = false ->
    Forall (fun e => no_newline e = true) entries ->
    is_empty (text_of (appends (Some c) entries)) = false /\
    split (text_of (appends (Some c) entries)) = (split c ++ entries)%list.
Proof.
  induction entries as [|e rest IH]; intros c Hc Hall; simpl.
  - rewrite app_nil_r. auto.
  - inversion Hall as [|e' rest' He Hrest]; subst.
    assert (Hne : is_empty (appended (Some c) e) = false)
      by (apply appended_not_empty; exact Hc).
    destruct (IH _ Hne Hrest) as [H1 H2]. split; [exact H1|].
    rewrite H2. unfold appended. simpl text_of. rewrite Hc.
    rewrite split_app_newline, (split_no_newline e He), <- app_assoc.
    reflexivity.
Qed.

(** From an absent or empty file, the empty entries at the front leave no
    trace. *)
Lemma lines_from_empty (entries : list string) :
  forall d : option string,
    is_empty (text_of d) = true ->
    Forall (fun e => no_newline e = true) entries ->
    stringToList (text_of (appends d entries)) = drop_leading_empty entries.
Proof.
  induction entries as [|e rest IH]; intros d Hd Hall; simpl.
  - destruct (text_of d); [reflexivity | discriminate].
  - inversion Hall as [|e' rest' He Hrest]; subst.
    unfold appended. rewrite Hd.
    destruct (is_empty e) eqn:Ee.
    + apply IH; [exact Ee | exact Hrest].
    + destruct (lines_after_appends rest e Ee Hrest) as [H1 H2].
      rewrite stringToList_nonempty by exact H1.
      rewrite H2, (split_no_newline e He). reflexivity.
Qed.

Lemma drop_leading_empty_id (entries : list string) :
  hd_error entries <> Some EmptyString -> drop_leading_empty entries = entries.
Proof.
  destruct entries as [|[|c e] rest]; simpl; intros H; congruence.
Qed.

End Appends.

(** ** Reading *)

Section Reading.

Variable f : Faults.
Variable i : list (Handler * option Error).

Lemma getFileSize_absent : getFileSize (mkState None f i) = (Ok 0%Z, mkState None f i).
Proof. reflexivity. Qed.

Lemma getFileSize_empty :
  getFileSize (mkState (Some EmptyString) f i) = (Ok 0%Z, mkState (Some EmptyString) f i).
Proof.
  unfold getFileSize, bind, exists_, try_catch_IOException, channel_size. simpl.
  destruct (size_fault f); reflexivity.
Qed.

(** C5: with the file absent, or present with size zero, [readEntries]
    returns the empty list (and not the list holding one empty string),
    whatever the device would do on a failing access. *)
Theorem C5_readEntries_absent_or_empty :
  readEntries (mkState None f i) = (Ok [], mkState None f i) /\
  readEntries (mkState (Some EmptyString) f i) = (Ok [], mkState (Some EmptyString) f i).
Proof.
  split.
  - reflexivity.
  - unfold readEntries, bind. rewrite getFileSize_empty. reflexivity.
Qed.

End Reading.

(** ** Appending *)

Section Appending.

(** After any run of appends on a healthy device all handlers have been
    called with [null], and the log reads back as the entries without the
    empty ones at the front. *)
Lemma appends_read_back (entries : list string) (h0 : Handler) :
  Forall (fun e => no_newline e = true) entries ->
  let r := submit_all (appends_from h0 entries) (fresh no_faults) in
  job_of r = Active /\ pending_of r = [] /\
  invoked (state_of r) = completions h0 (List.length entries) /\
  readEntries (state_of r) = (Ok (drop_leading_empty entries), state_of r).
Proof.
  intros Hall r. subst r. unfold fresh. rewrite submit_appends.
  unfold job_of, pending_of, state_of. simpl.
  repeat split.
  rewrite readEntries_no_faults, (lines_from_empty entries None) by auto.
  reflexivity.
Qed.

(** C1, refuted as written: the empty string is an entry without a newline,
    and appending it alone to a new log reads back as no entry at all. *)
Lemma C1_empty_entry_not_read_back :
  Forall (fun e => no_newline e = true) [EmptyString] /\
  ~ reads_back [EmptyString] /\
  fst (readEntries (state_of (submit_all (appends_from 0 [EmptyString]) (fresh no_faults))))
  = Ok [].
Proof.
  split; [repeat constructor|]. split; [|reflexivity].
  unfold reads_back. vm_compute. discriminate.
Qed.

(** C1, amended: for every sequence of newline-free entries whose first entry
    is not the empty string, appended in this order to a log whose file does
    not exist on a device without failures, every completion handler is
    called with [null], in order, and [readEntries] then returns exactly the
    entries, in submission order (so a list of the same length). *)
Theorem C1_appends_read_back_in_order (entries : list string) (h0 : Handler) :
  Forall (fun e => no_newline e = true) entries ->
  hd_error entries <> Some EmptyString ->
  let r := submit_all (appends_from h0 entries) (fresh no_faults) in
  job_of r = Active /\ pending_of r = [] /\
  invoked (state_of r) = completions h0 (List.length entries) /\
  readEntries (state_of r) = (Ok entries, state_of r).
Proof.
  intros Hall Hhd.
  pose proof (appends_read_back entries h0 Hall) as H.
  rewrite (drop_leading_empty_id entries Hhd) in H. exact H.
Qed.

Lemma C1_witness_three_entries :
  let entries := ["A"; ""; "B"] in
  let r := submit_all (appends_from 7 entries) (fresh no_faults) in
  job_of r = Active /\ pending_of r = [] /\
  invoked (state_of r) = completions 7 3 /\
  readEntries (state_of r) = (Ok entries, state_of r).
Proof.
  apply (C1_appends_read_back_in_order ["A"; ""; "B"] 7).
  - repeat constructor.
  - simpl. discriminate.
Defined.

(** C2: from a file that does not exist, append("A"), append("B"),
    filter(entry != "A"), append("C"), then [readEntries], gives
    ["B"; "C"]; the four handlers were called with [null]. *)
Theorem C2_scenario :
  let ops := [Append "A" 0; Append "B" 1;
              Filter (fun entry => negb (String.eqb entry "A")) 2;
              Append "C" 3] in
  let r := submit_all ops (fresh no_faults) in
  job_of r = Active /\
  invoked (state_of r) = [(0, None); (1, None); (2, None); (3, None)] /\
  fst (readEntries (state_of r)) = Ok ["B"; "C"].
Proof. repeat split. Qed.

(** C4, refuted as written: appending the empty entry to a file that holds
    "a" leaves "a" followed by a newline. *)
Lemma C4_trailing_newline_after_empty_entry :
  disk (snd (appendEntry "" 0 (mkState (Some "a") no_faults []))) = Some ("a" ++ NL) /\
  ends_with_newline ("a" ++ NL) = true.
Proof. split; reflexivity. Qed.

(** C4, amended: on a device without failures, for every entry and every
    file, [appendEntry] calls its handler with [null] and leaves in the file
    the entry alone when the file was absent or empty, and the old text, a
    newline and the entry otherwise; the new text ends with a newline exactly
    when the entry does, or when the entry is empty and the file was not. *)
Theorem C4_appendEntry_text (d : option string) (entry : string) (h : Handler)
    (i : list (Handler * option Error)) :
  appendEntry entry h (mkState d no_faults i)
  = (Ok tt,
     mkState (Some (if is_empty (text_of d) then entry else text_of d ++ NL ++ entry))
             no_faults (i ++ [(h, None)])%list) /\
  ends_with_newline (if is_empty (text_of d) then entry else text_of d ++ NL ++ entry)
  = ends_with_newline entry || (is_empty entry && negb (is_empty (text_of d))).
Proof.
  split; [apply appendEntry_no_faults | apply ends_with_newline_appended].
Qed.

(** An entry that is not empty and has no newline never leaves a newline at
    the end of the file. *)
Corollary appendEntry_no_trailing_newline (d : option string) (entry : string) :
  is_empty entry = false -> no_newline entry = true ->
  ends_with_newline (appended d entry) = false.
Proof.
  intros He Hn. unfold appended.
  rewrite ends_with_newline_appended, He, (no_newline_not_ends entry Hn).
  reflexivity.
Qed.

End Appending.

(** ** Filtering and clearing *)

Section FilterClear.

Variable i : list (Handler * option Error).

(** C6: on a device without failures and for every file, [filterEntries]
    with the predicate that is always true calls its handler with [null] and
    leaves the text of the file as it was (an absent file is then an empty
    one), so [readEntries] is unchanged and a second such filter changes
    nothing; with the predicate that is always false a following
    [readEntries] returns the empty list, as it does after [clearEntries]. *)
Theorem C6_filterEntries_all_or_none (d : option string) (h h' : Handler) :
  let s := mkState d no_faults i in
  let kept := filterEntries (fun _ => true) h s in
  fst kept = Ok tt /\
  invoked (snd kept) = (i ++ [(h, None)])%list /\
  disk (snd kept) = Some (text_of d) /\
  fst (readEntries (snd kept)) = fst (readEntries s) /\
  disk (snd (filterEntries (fun _ => true) h' (snd kept))) = disk (snd kept) /\
  fst (readEntries (snd (filterEntries (fun _ => false) h s))) = Ok [] /\
  fst (readEntries (snd (clearEntries h s))) = Ok [].
Proof.
  intros s kept. subst s kept.
  repeat (rewrite ?filterEntries_no_faults, ?clearEntries_no_faults,
             ?readEntries_no_faults; cbn [fst snd disk invoked text_of]).
  rewrite !filter_all, filter_none, !joinToString_stringToList.
  repeat split.
Qed.

(** C7: [clearEntries] on a log whose file does not exist changes nothing
    and calls its handler with [null]; nothing is thrown, so the worker goes
    on.  This holds whatever the device would do on a failing access. *)
Theorem C7_clearEntries_absent (f : Faults) (h : Handler) :
  clearEntries h (mkState None f i) = (Ok tt, mkState None f (i ++ [(h, None)])%list) /\
  job_of (submit_all [Clear h] (mkState None f i)) = Active.
Proof. split; reflexivity. Qed.

(** C8, evaluated where the code departs from it: the file holds "a" and
    [File.delete] returns false.  [deleteFileSync] drops that result, the
    handler is called with [null] and the file is still there. *)
Theorem C8_delete_failure_swallowed :
  clearEntries 0 (mkState (Some "a") delete_denied [])
  = (Ok tt, mkState (Some "a") delete_denied [(0, None)]).
Proof. reflexivity. Qed.

End FilterClear.

(** ** The empty entry *)

(** C10: appending the empty string to a log whose file is absent or empty,
    on a device without failures, leaves a file of size zero; [readEntries]
    then returns the empty list, and the next append writes its entry alone,
    with no newline before it. *)
Theorem C10_empty_entry_lost (d : option string) (entry : string) (h h' : Handler)
    (i : list (Handler * option Error)) :
  is_empty (text_of d) = true ->
  let s1 := snd (appendEntry EmptyString h (mkState d no_faults i)) in
  disk s1 = Some EmptyString /\
  fst (getFileSize s1) = Ok 0%Z /\
  fst (readEntries s1) = Ok [] /\
  disk (snd (appendEntry entry h' s1)) = Some entry.
Proof.
  intros Hd s1. subst s1. rewrite appendEntry_no_faults.
  unfold appended at 1 2 3 4. rewrite Hd. cbn [snd disk].
  rewrite getFileSize_no_faults, readEntries_no_faults, appendEntry_no_faults.
  repeat split.
Qed.

Lemma C10_witness_absent_file :
  let s1 := snd (appendEntry EmptyString 0 (mkState None no_faults [])) in
  disk s1 = Some EmptyString /\
  fst (getFileSize s1) = Ok 0%Z /\
  fst (readEntries s1) = Ok [] /\
  disk (snd (appendEntry "first" 1 s1)) = Some "first".
Proof. apply (C10_empty_entry_lost None "first" 0 1 []). reflexivity. Defined.

(** ** Failures inside queued operations *)

Section Failures.

(** [filterEntries] catches every throwable: its block always returns and
    calls the handler once. *)
Lemma filterEntries_always_reports (p : string -> bool) (h : Handler) (s : State) :
  exists e s',
    filterEntries p h s = (Ok tt, s') /\ invoked s' = (invoked s ++ [(h, e)])%list.
Proof.
  destruct s as [d [cf sf af rf wf df] i].
  unfold filterEntries, try_catch_Throwable, bind, ensureFileExists, exists_,
    createNewFile, readFileLinesSync, readText, writeFileLinesSync, writeText,
    invoke, throw, ret, set_disk; simpl.
  destruct d as [c|]; [|destruct cf as [[|m]|]];
    destruct rf; destruct wf; simpl;
    do 2 eexists; split; reflexivity.
Qed.

(** [appendEntry] catches [Error] only: when the file cannot be created the
    [IOException] leaves the block and the handler is never called. *)
Lemma appendEntry_create_failure_escapes (entry : string) (h : Handler)
    (cf : CreateFailure) (sf : bool) (af rf wf : option Throwable) (df : bool)
    (i : list (Handler * option Error)) :
  exists m,
    appendEntry entry h (mkState None (mkFaults (Some cf) sf af rf wf df) i)
    = (Throw (IOException m), mkState None (mkFaults (Some cf) sf af rf wf df) i).
Proof. destruct cf; eexists; reflexivity. Qed.

(** C3, evaluated where the code departs from it: the file does not exist
    and cannot be created.  The [IOException] of [ensureFileExists] is not an
    [Error], so [appendEntry] does not catch it: the handler is not called,
    the worker fails with the exception, and the [clearEntries] queued behind
    it is never run. *)
Theorem C3_appendEntry_IOException_escapes :
  let r := submit_all [Append "a" 0; Clear 1] (fresh create_denied) in
  job_of r = Failed (IOException "Unable to create file at path") /\
  pending_of r = [clearEntries 1] /\
  invoked (state_of r) = [].
Proof. repeat split. Qed.

(** The same failure inside [filterEntries] is reported to its handler and
    the worker goes on to the next block. *)
Lemma filterEntries_create_failure_reported :
  let r := submit_all [Filter (fun _ => true) 0; Clear 1] (fresh create_denied) in
  job_of r = Active /\
  pending_of r = [] /\
  invoked (state_of r)
  = [(0, Some (ErrorOf (IOException "Unable to create file at path"))); (1, None)].
Proof. repeat split. Qed.

End Failures.

(** ** Order of execution *)

Section Serial.

Variable s0 : State.
Variable capacity : nat.

Lemma run_in_order_app (ops : list Operation) (op : Operation) :
  forall s, run_in_order (ops ++ [op]) s = snd (block_of op (run_in_order ops s)).
Proof.
  induction ops as [|o rest IH]; intros s; simpl; [reflexivity | apply IH].
Qed.

(** Draining the channel with the worker alive to the end is running the
    operations in order. *)
Lemma submit_all_run_in_order (ops : list Operation) :
  forall s, job_of (submit_all ops s) = Active ->
            state_of (submit_all ops s) = run_in_order ops s.
Proof.
  unfold submit_all, job_of, state_of.
  induction ops as [|op rest IH]; intros s; simpl; [reflexivity|].
  destruct (block_of op s) as [[u|t] s']; simpl; [apply IH | discriminate].
Qed.

Lemma serial_start : serial s0 (start s0).
Proof. split; reflexivity. Qed.

Lemma serial_next (ev : Event) (sy : System) :
  serial s0 sy -> serial s0 (next capacity ev sy).
Proof.
  destruct sy as [sub ch run ex job dev]. unfold serial, in_flight. simpl.
  intros [Hfifo Hdev]. destruct ev as [op| | |]; simpl.
  - destruct (Nat.ltb (List.length ch) capacity); simpl; [|auto].
    split; [|exact Hdev].
    rewrite <- Hfifo, <- !app_assoc. reflexivity.
  - destruct job; simpl; auto.
    destruct run as [op|]; simpl; auto.
    destruct ch as [|op rest]; simpl; auto.
  - destruct run as [op|]; simpl; auto.
    destruct (block_of op dev) as [[[]|t] s'] eqn:E; simpl;
      (split;
       [ rewrite <- Hfifo, <- app_assoc; reflexivity
       | rewrite run_in_order_app, <- Hdev, E; reflexivity ]).
  - destruct job; simpl; auto.
Qed.

Lemma serial_run_schedule (evs : list Event) :
  forall sy, serial s0 sy -> serial s0 (run_schedule capacity evs sy).
Proof.
  induction evs as [|ev rest IH]; intros sy H; simpl; [exact H|].
  apply IH, serial_next, H.
Qed.

End Serial.

(** * Further properties of the code *)

(** ** Lines *)

Section Lines.

Lemma split_newline_free (text : string) :
  Forall (fun e => no_newline e = true) (split text).
Proof.
  induction text as [|c rest IH]; simpl.
  - repeat constructor.
  - destruct (Ascii.eqb c newline) eqn:Ec.
    + constructor; [reflexivity | exact IH].
    + destruct (split rest) as [|w ws]; [repeat constructor; simpl; now rewrite Ec|].
      inversion IH as [|w' ws' Hw Hws]; subst.
      constructor; [simpl; rewrite Ec, Hw; reflexivity | exact Hws].
Qed.

Lemma stringToList_newline_free (text : string) :
  Forall (fun e => no_newline e = true) (stringToList text).
Proof.
  destruct text as [|c rest]; [constructor|].
  rewrite stringToList_nonempty by reflexivity. apply split_newline_free.
Qed.

Lemma filter_newline_free (p : string -> bool) (l : list string) :
  Forall (fun e => no_newline e = true) l ->
  Forall (fun e => no_newline e = true) (List.filter p l).
Proof.
  induction 1 as [|e l He Hl IH]; simpl; [constructor|].
  destruct (p e); [constructor; assumption | exact IH].
Qed.

Lemma split_joinToString (entries : list string) :
  entries <> [] ->
  Forall (fun e => no_newline e = true) entries ->
  split (joinToString NL entries) = entries.
Proof.
  induction entries as [|e rest IH]; intros Hne Hall; [congruence|].
  inversion Hall as [|e' rest' He Hrest]; subst.
  destruct rest as [|e2 rest2].
  - simpl. apply split_no_newline, He.
  - rewrite joinToString_cons by discriminate.
    rewrite split_app_newline, (split_no_newline e He), IH by (auto; discriminate).
    reflexivity.
Qed.

Lemma joinToString_is_empty (entries : list string) :
  is_empty (joinToString NL entries) = true -> as_read entries = [].
Proof.
  destruct entries as [|e [|e2 rest]]; simpl; intros H.
  - reflexivity.
  - destruct e; [reflexivity | discriminate].
  - destruct e; discriminate.
Qed.

Lemma as_read_not_nil (entries : list string) :
  as_read entries <> [] -> as_read entries = entries /\ entries <> [].
Proof.
  destruct entries as [|[|c e] [|e2 rest]]; simpl; intros H; split;
    congruence.
Qed.

Lemma stringToList_joinToString (entries : list string) :
  Forall (fun e => no_newline e = true) entries ->
  stringToList (joinToString NL entries) = as_read entries.
Proof.
  intros Hall. destruct (is_empty (joinToString NL entries)) eqn:E.
  - rewrite (joinToString_is_empty entries E).
    destruct (joinToString NL entries); [reflexivity | discriminate].
  - rewrite stringToList_nonempty by exact E.
    destruct entries as [|[|c e] [|e2 rest]];
      try discriminate; try (apply split_joinToString; [discriminate | exact Hall]).
Qed.

Lemma joinToString_filter_as_read (q : string -> bool) (entries : list string) :
  joinToString NL (List.filter q (as_read entries))
  = joinToString NL (List.filter q entries).
Proof.
  destruct entries as [|[|c e] [|e2 rest]]; try reflexivity.
  simpl. destruct (q EmptyString); reflexivity.
Qed.

Lemma filter_filter (p q : string -> bool) (l : list string) :
  List.filter q (List.filter p l) = List.filter (fun e => p e && q e) l.
Proof.
  induction l as [|e l IH]; simpl; [reflexivity|].
  destruct (p e); simpl; [destruct (q e); rewrite IH; reflexivity | exact IH].
Qed.

Lemma length_split (text : string) :
  List.length (split text) = S (count_newlines text).
Proof.
  induction text as [|c rest IH]; simpl; [reflexivity|].
  destruct (Ascii.eqb c newline); simpl.
  - rewrite IH. reflexivity.
  - destruct (split rest) as [|w ws]; simpl in *; [discriminate | exact IH].
Qed.

End Lines.

(** ** Writing lines and reading them back *)

Section RoundTrips.

Variable i : list (Handler * option Error).

(** [writeFileLinesSync] followed by [readFileLinesSync], when neither the
    write nor the read fails: entries without newlines are read back as they
    were written, except that the single empty entry is read back as no
    entry.  The file holds the entries joined by newlines. *)
Theorem write_then_read_lines (entries : list string) (d : option string) (f : Faults) :
  write_fault f = None -> read_fault f = None ->
  Forall (fun e => no_newline e = true) entries ->
  (writeFileLinesSync entries ;;; readFileLinesSync) (mkState d f i)
  = (Ok (as_read entries), mkState (Some (joinToString NL entries)) f i).
Proof.
  intros Hw Hr Hall. destruct f as [cf sf af rf wf df]. simpl in Hw, Hr. subst wf rf.
  unfold writeFileLinesSync, readFileLinesSync, bind, writeText, readText, ret,
    set_disk. cbn [faults write_fault read_fault disk invoked].
  rewrite (stringToList_joinToString entries Hall). reflexivity.
Qed.

(** After [filterEntries], on a device without failures, [readEntries]
    returns the entries it returned before that pass the filter, in their
    order; only when exactly one entry passes and it is the empty one does
    it return none. *)
Theorem filterEntries_then_readEntries (p : string -> bool) (d : option string)
    (h : Handler) :
  let s := mkState d no_faults i in
  fst (readEntries (snd (filterEntries p h s)))
  = match fst (readEntries s) with
    | Ok before => Ok (as_read (List.filter p before))
    | Throw t => Throw t
    end.
Proof.
  intros s. subst s.
  repeat (rewrite ?filterEntries_no_faults, ?readEntries_no_faults;
          cbn [fst snd text_of]).
  rewrite stringToList_joinToString
    by apply filter_newline_free, stringToList_newline_free.
  reflexivity.
Qed.

(** Two filters in a row leave the file that one filter with the
    conjunction of the two predicates leaves. *)
Theorem filterEntries_twice (p q : string -> bool) (d : option string)
    (h h' : Handler) :
  let s := mkState d no_faults i in
  disk (snd (filterEntries q h' (snd (filterEntries p h s))))
  = disk (snd (filterEntries (fun e => p e && q e) h s)).
Proof.
  intros s. subst s.
  rewrite (filterEntries_no_faults i d p). cbn [snd].
  rewrite !filterEntries_no_faults. cbn [snd disk text_of].
  rewrite stringToList_joinToString
    by apply filter_newline_free, stringToList_newline_free.
  rewrite joinToString_filter_as_read, filter_filter. reflexivity.
Qed.

(** Appending to a log that already holds text, on a device without
    failures: the old entries stay, and the new ones, empty ones included,
    follow them in the order of submission. *)
Theorem appends_to_existing_log (c : string) (entries : list string) (h0 : Handler) :
  is_empty c = false ->
  Forall (fun e => no_newline e = true) entries ->
  let s := mkState (Some c) no_faults i in
  let r := submit_all (appends_from h0 entries) s in
  fst (readEntries s) = Ok (split c) /\
  job_of r = Active /\
  fst (readEntries (state_of r)) = Ok (split c ++ entries)%list.
Proof.
  intros Hc Hall s r. subst s r. rewrite submit_appends.
  unfold job_of, state_of. cbn [fst snd].
  rewrite !readEntries_no_faults. cbn [fst text_of].
  destruct (lines_after_appends entries c Hc Hall) as [H1 H2].
  rewrite !stringToList_nonempty by assumption. rewrite H2. auto.
Qed.

End RoundTrips.

Lemma witness_lines_written_and_read :
  (writeFileLinesSync ["x"; ""; "y"] ;;; readFileLinesSync) (mkState None no_faults [])
  = (Ok ["x"; ""; "y"], mkState (Some (joinToString NL ["x"; ""; "y"])) no_faults []).
Proof.
  apply (write_then_read_lines [] ["x"; ""; "y"] None no_faults);
    [reflexivity | reflexivity | repeat constructor].
Defined.

Lemma witness_appends_after_old_entries :
  let s := mkState (Some ("old" ++ NL ++ "older")) no_faults [] in
  let r := submit_all (appends_from 4 [""; "new"]) s in
  fst (readEntries s) = Ok (split ("old" ++ NL ++ "older")) /\
  job_of r = Active /\
  fst (readEntries (state_of r))
  = Ok (split ("old" ++ NL ++ "older") ++ [""; "new"])%list.
Proof.
  apply (appends_to_existing_log [] ("old" ++ NL ++ "older") [""; "new"] 4);
    [reflexivity | repeat constructor].
Defined.

(** ** Reading, on any device *)

Section ReadingAnywhere.

(** [readEntries] only reads: whatever it returns or throws, the file, the
    device and the record of handler calls are as before.  In particular it
    does not create a missing file. *)
Theorem readEntries_changes_nothing (s : State) : snd (readEntries s) = s.
Proof.
  destruct s as [d [cf sf af rf wf df] i].
  unfold readEntries, getFileSize, readFileLinesSync, bind, exists_,
    try_catch_IOException, channel_size, readText, ret. simpl.
  destruct d as [[|c rest]|]; simpl; [| |reflexivity].
  - destruct sf; reflexivity.
  - destruct sf; simpl; [reflexivity|]. destruct rf; reflexivity.
Qed.

(** No entry that [readEntries] returns contains a newline. *)
Theorem readEntries_newline_free (s s' : State) (entries : list string) :
  readEntries s = (Ok entries, s') ->
  Forall (fun e => no_newline e = true) entries.
Proof.
  destruct s as [d [cf sf af rf wf df] i].
  unfold readEntries, getFileSize, readFileLinesSync, bind, exists_,
    try_catch_IOException, channel_size, readText, ret. simpl.
  destruct d as [[|c rest]|]; simpl.
  - destruct sf; simpl; intros H; inversion H; constructor.
  - destruct sf; simpl.
    + intros H. inversion H. constructor.
    + destruct rf; simpl; intros H; inversion H.
      apply (stringToList_newline_free (String c rest)).
  - intros H. inversion H. constructor.
Qed.

Lemma witness_entries_without_newline :
  Forall (fun e => no_newline e = true) ["a"; ""; "b"].
Proof.
  apply (readEntries_newline_free
           (mkState (Some ("a" ++ NL ++ NL ++ "b")) no_faults [])
           (mkState (Some ("a" ++ NL ++ NL ++ "b")) no_faults [])
           ["a"; ""; "b"]).
  reflexivity.
Defined.

(** On a device without failures [readEntries] returns no entry for an
    absent or empty file and otherwise one entry more than the file has
    newlines: a newline at the very end of the file counts as the start of
    one more, empty, entry. *)
Theorem readEntries_count (d : option string) (i : list (Handler * option Error)) :
  exists entries,
    readEntries (mkState d no_faults i) = (Ok entries, mkState d no_faults i) /\
    List.length entries
    = if is_empty (text_of d) then O else S (count_newlines (text_of d)).
Proof.
  exists (stringToList (text_of d)). split; [apply readEntries_no_faults|].
  destruct (text_of d) as [|c rest] eqn:E; [reflexivity|].
  rewrite stringToList_nonempty by reflexivity. apply length_split.
Qed.

(** When the size of an existing file cannot be read, [getFileSize] swallows
    the [IOException] and answers 0.  The file is then taken for empty,
    whatever it holds: [readEntries] returns no entry, and [appendEntry]
    (if its own write goes through) puts the entry right after the old text,
    with no newline in between. *)
Theorem unreadable_size_taken_for_empty (c entry : string) (h : Handler)
    (cf : option CreateFailure) (af rf wf : option Throwable) (df : bool)
    (i : list (Handler * option Error)) :
  readEntries (mkState (Some c) (mkFaults cf true af rf wf df) i)
  = (Ok [], mkState (Some c) (mkFaults cf true af rf wf df) i) /\
  appendEntry entry h (mkState (Some c) (mkFaults cf true None rf wf df) i)
  = (Ok tt, mkState (Some (c ++ entry)) (mkFaults cf true None rf wf df)
                    (i ++ [(h, None)])%list).
Proof. split; reflexivity. Qed.

End ReadingAnywhere.

(** ** What the queued blocks do on any device *)

Section Blocks.

(** [ensureFileExists] on any device: if it returns, the file exists and
    its text is what it was (empty if the file was missing); if it throws,
    the file was missing, it still is, and the throwable is an
    [IOException].  A file that exists is never touched, even on a device
    where creation fails. *)
Theorem ensureFileExists_outcome (s : State) :
  match ensureFileExists s with
  | (Ok _, s') =>
      disk s' = Some (text_of (disk s)) /\ faults s' = faults s /\ invoked s' = invoked s
  | (Throw t, s') =>
      disk s = None /\ s' = s /\ exists m, t = IOException m
  end.
Proof.
  destruct s as [[c|] [[[|m]|] sf af rf wf df] i]; simpl; eauto.
Qed.

(** [clearEntries] never reports an error and never throws: on any device
    its block returns after one call of the handler, with [null].  The file
    is gone unless [File.delete] returned false, in which case it is as it
    was. *)
Theorem clearEntries_outcome (h : Handler) (s : State) :
  clearEntries h s
  = (Ok tt,
     mkState (if delete_fault (faults s) then disk s else None)
             (faults s) (invoked s ++ [(h, None)])%list).
Proof.
  destruct s as [[c|] [cf sf af rf wf []] i]; reflexivity.
Qed.

Lemma appendEntry_cases (entry : string) (h : Handler) (s : State) :
  (exists e s',
      appendEntry entry h s = (Ok tt, s') /\
      invoked s' = (invoked s ++ [(h, e)])%list) \/
  (exists m s',
      appendEntry entry h s = (Throw (IOException m), s') /\
      invoked s' = invoked s /\
      text_of (disk s') = text_of (disk s)).
Proof.
  destruct s as [[c|] [[[|m]|] sf [[m'|e]|] rf wf df] i];
    try (destruct sf);
    try (destruct (Z.eqb (Z.of_nat (String.length c)) 0) eqn:E);
    unfold appendEntry, try_catch_Error, bind, ensureFileExists, getFileSize,
      exists_, createNewFile, try_catch_IOException, channel_size,
      appendTextToFile, appendText, invoke, throw, ret, set_disk; simpl;
    try rewrite E; simpl;
    solve [ left; do 2 eexists; split; reflexivity
          | right; do 2 eexists; split; [reflexivity | split; reflexivity] ].
Qed.

(** [appendEntry] on any device: either its block returns after exactly one
    call of the handler, or an [IOException] leaves the block, the handler
    has not been called and the text of the file is what it was. *)
Theorem appendEntry_outcome (entry : string) (h : Handler) (s : State) :
  (exists e s',
      appendEntry entry h s = (Ok tt, s') /\
      invoked s' = (invoked s ++ [(h, e)])%list) \/
  (exists m s',
      appendEntry entry h s = (Throw (IOException m), s') /\
      invoked s' = invoked s /\
      text_of (disk s') = text_of (disk s)).
Proof. exact (appendEntry_cases entry h s). Qed.

(** [filterEntries] on any device: its block always returns, after exactly
    one call of the handler; when the handler got [null], the file holds the
    entries of the old text that pass the filter, joined by newlines. *)
Theorem filterEntries_outcome (p : string -> bool) (h : Handler) (s : State) :
  exists e s',
    filterEntries p h s = (Ok tt, s') /\
    invoked s' = (invoked s ++ [(h, e)])%list /\
    match e with
    | None =>
        disk s' = Some (joinToString NL (List.filter p (stringToList (text_of (disk s)))))
    | Some _ => True
    end.
Proof.
  destruct s as [d [cf sf af rf wf df] i].
  unfold filterEntries, try_catch_Throwable, bind, ensureFileExists, exists_,
    createNewFile, readFileLinesSync, readText, writeFileLinesSync, writeText,
    invoke, throw, ret, set_disk; simpl.
  destruct d as [c|]; [|destruct cf as [[|m]|]];
    destruct rf; destruct wf; simpl;
    do 2 eexists; (split; [reflexivity|]); split; reflexivity || exact I.
Qed.

End Blocks.

(** ** The worker over a queue of operations, on any device *)

Section Worker.

Lemma block_returns_invokes (op : Operation) (s s' : State) (u : unit) :
  block_of op s = (Ok u, s') ->
  map fst (invoked s') = (map fst (invoked s) ++ [handler_of op])%list.
Proof.
  destruct op as [entry h|p h|h]; simpl; intros H.
  - destruct (appendEntry_cases entry h s) as [(e & s1 & H1 & H2)|(m & s1 & H1 & _)];
      rewrite H1 in H; inversion H; subst.
    rewrite H2, map_app. reflexivity.
  - destruct (filterEntries_always_reports p h s) as (e & s1 & H1 & H2).
    rewrite H1 in H. inversion H; subst. rewrite H2, map_app. reflexivity.
  - destruct s as [[c|] [cf sf af rf wf []] i]; inversion H; subst; simpl;
      rewrite map_app; reflexivity.
Qed.

Lemma block_throws_is_append (op : Operation) (s s' : State) (t : Throwable) :
  block_of op s = (Throw t, s') ->
  invoked s' = invoked s /\
  exists entry h m, op = Append entry h /\ t = IOException m.
Proof.
  destruct op as [entry h|p h|h]; simpl; intros H.
  - destruct (appendEntry_cases entry h s) as [(e & s1 & H1 & _)|(m & s1 & H1 & H2 & _)];
      rewrite H1 in H; inversion H; subst.
    split; [exact H2 | eauto].
  - destruct (filterEntries_always_reports p h s) as (e & s1 & H1 & _).
    rewrite H1 in H. discriminate.
  - destruct s as [[c|] [cf sf af rf wf []] i]; discriminate.
Qed.

(** The worker over any queue, on any device.  Either it is alive at the
    end, the channel is empty and every handler has been called once, in
    the order of submission; or an [IOException] left an [appendEntry], and
    then the handlers of the operations before it have been called, in
    order, its own handler and those of the operations behind it have not,
    and these operations are still in the channel. *)
Theorem worker_outcome (ops : list Operation) :
  forall s : State,
    let r := submit_all ops s in
    (job_of r = Active /\ pending_of r = [] /\
     map fst (invoked (state_of r)) = (map fst (invoked s) ++ map handler_of ops)%list)
    \/
    (exists done entry h rest m,
        ops = (done ++ Append entry h :: rest)%list /\
        job_of r = Failed (IOException m) /\
        pending_of r = map block_of rest /\
        map fst (invoked (state_of r))
        = (map fst (invoked s) ++ map handler_of done)%list).
Proof.
  unfold submit_all, job_of, pending_of, state_of.
  induction ops as [|op rest IH]; intros s; simpl.
  - left. rewrite app_nil_r. auto.
  - destruct (block_of op s) as [[u|t] s1] eqn:E.
    + pose proof (block_returns_invokes op s s1 u E) as Hinv.
      destruct (IH s1) as [(Hj & Hp & Hi)|(done & entry & h & rest' & m & Hops & Hj & Hp & Hi)].
      * left. rewrite Hi, Hinv, <- app_assoc. auto.
      * right. exists (op :: done), entry, h, rest', m.
        rewrite Hi, Hinv, <- app_assoc. subst rest. auto.
    + destruct (block_throws_is_append op s s1 t E) as (Hinv & entry & h & m & Hop & Ht).
      right. exists [], entry, h, rest, m. subst op t. simpl.
      rewrite Hinv, app_nil_r. auto.
Qed.

(** A queue without [appendEntry] never stops the worker, whatever fails on
    the device: every [filterEntries] and [clearEntries] is run and has its
    handler called once, in the order of submission. *)
Theorem worker_survives_without_appends (ops : list Operation) (s : State) :
  forallb (fun op => negb (is_append op)) ops = true ->
  let r := submit_all ops s in
  job_of r = Active /\ pending_of r = [] /\
  map fst (invoked (state_of r)) = (map fst (invoked s) ++ map handler_of ops)%list.
Proof.
  unfold submit_all, job_of, pending_of, state_of.
  revert s. induction ops as [|op rest IH]; intros s Hall; simpl.
  - rewrite app_nil_r. auto.
  - simpl in Hall. apply andb_true_iff in Hall as [Hop Hrest].
    destruct (block_of op s) as [[u|t] s1] eqn:E.
    + destruct (IH s1 Hrest) as (Hj & Hp & Hi).
      rewrite Hi, (block_returns_invokes op s s1 u E), <- app_assoc. auto.
    + destruct (block_throws_is_append op s s1 t E) as (_ & entry & h & m & Hop' & _).
      subst op. discriminate.
Qed.

Lemma witness_filter_and_clear_queue :
  let r := submit_all [Filter (fun e => negb (is_empty e)) 3; Clear 5]
                      (mkState None create_denied []) in
  job_of r = Active /\ pending_of r = [] /\
  map fst (invoked (state_of r)) = [3; 5].
Proof.
  apply (worker_survives_without_appends
           [Filter (fun e => negb (is_empty e)) 3; Clear 5]
           (mkState None create_denied [])).
  reflexivity.
Defined.

End Worker.

(** ** Schedules of the queue *)

Section Schedules.

Variable capacity : nat.

Lemma next_when_stopped (ev : Event) (sy : System) :
  sc sy <> Active -> running sy = None ->
  let sy' := next capacity ev sy in
  sc sy' = sc sy /\ running sy' = None /\
  executed sy' = executed sy /\ device sy' = device sy.
Proof.
  destruct sy as [sub ch run ex job dev]. simpl. intros Hj Hr. subst run.
  destruct ev as [op| | |]; simpl.
  - destruct (Nat.ltb (List.length ch) capacity); simpl; auto.
  - destruct job; simpl; auto. congruence.
  - auto.
  - destruct job; simpl; auto. congruence.
Qed.

Lemma run_schedule_when_stopped (evs : list Event) :
  forall sy : System,
    sc sy <> Active -> running sy = None ->
    let sy' := run_schedule capacity evs sy in
    sc sy' = sc sy /\ executed sy' = executed sy /\ device sy' = device sy.
Proof.
  induction evs as [|ev rest IH]; intros sy Hj Hr; simpl; [auto|].
  destruct (next_when_stopped ev sy Hj Hr) as (H1 & H2 & H3 & H4).
  destruct (IH (next capacity ev sy)) as (K1 & K2 & K3);
    [rewrite H1; exact Hj | exact H2 |].
  unfold run_schedule in *. rewrite K1, K2, K3. auto.
Qed.

(** Once a throwable has left a block the worker is gone for good:
    whatever is added afterwards and whatever else happens, no operation is
    executed any more and the device stays as it is. *)
Theorem failed_worker_runs_nothing (evs : list Event) (sy : System) (t : Throwable) :
  sc sy = Failed t -> running sy = None ->
  let sy' := run_schedule capacity evs sy in
  sc sy' = Failed t /\ executed sy' = executed sy /\ device sy' = device sy.
Proof.
  intros Hj Hr sy'. subst sy'.
  destruct (run_schedule_when_stopped evs sy) as (H1 & H2 & H3);
    [rewrite Hj; discriminate | exact Hr |].
  rewrite H1, Hj. auto.
Qed.

Lemma run_schedule_cons (ev : Event) (evs : list Event) (sy : System) :
  run_schedule capacity (ev :: evs) sy = run_schedule capacity evs (next capacity ev sy).
Proof. reflexivity. Qed.

Lemma run_schedule_app (evs1 evs2 : list Event) (sy : System) :
  run_schedule capacity (evs1 ++ evs2) sy
  = run_schedule capacity evs2 (run_schedule capacity evs1 sy).
Proof. unfold run_schedule. apply fold_left_app. Qed.

Lemma run_schedule_adds (ops : list Operation) :
  forall sy : System,
    List.length (channel sy) + List.length ops <= capacity ->
    run_schedule capacity (map CallAdd ops) sy
    = mkSystem (submitted sy ++ ops) (channel sy ++ ops)
               (running sy) (executed sy) (sc sy) (device sy).
Proof.
  induction ops as [|op rest IH]; intros sy Hlen.
  - simpl. rewrite !app_nil_r. destruct sy; reflexivity.
  - simpl in Hlen. cbn [map]. rewrite run_schedule_cons. cbn [next].
    assert (Hlt : Nat.ltb (List.length (channel sy)) capacity = true)
      by (apply Nat.ltb_lt; lia).
    rewrite Hlt, IH; simpl; [|rewrite length_app; simpl; lia].
    rewrite <- !app_assoc. reflexivity.
Qed.

Lemma drain_when_stopped (n : nat) :
  forall sy : System,
    sc sy <> Active -> running sy = None ->
    run_schedule capacity (drain n) sy = sy.
Proof.
  induction n as [|n IH]; intros sy Hj Hr; [reflexivity|].
  cbn [drain]. rewrite !run_schedule_cons.
  assert (E1 : next capacity WorkerReceive sy = sy)
    by (destruct sy as [sub ch run ex [] dev]; simpl in *; congruence).
  rewrite E1.
  assert (E2 : next capacity WorkerFinish sy = sy)
    by (destruct sy as [sub ch run ex job dev]; simpl in *; subst; reflexivity).
  rewrite E2. apply (IH sy Hj Hr).
Qed.

Lemma drain_runs_worker (ops : list Operation) :
  forall sy : System,
    sc sy = Active -> running sy = None -> channel sy = ops ->
    let r := run_worker (map block_of ops) (device sy) in
    let sy' := run_schedule capacity (drain (List.length ops)) sy in
    sc sy' = job_of r /\ device sy' = state_of r /\
    map block_of (channel sy') = pending_of r /\
    running sy' = None /\ submitted sy' = submitted sy.
Proof.
  unfold job_of, pending_of, state_of.
  induction ops as [|op rest IH]; intros sy Hj Hr Hc.
  - simpl. rewrite Hc. auto.
  - destruct sy as [sub ch run ex job dev]. simpl in Hj, Hr, Hc. subst job run ch.
    cbn [List.length drain map run_worker device]. rewrite !run_schedule_cons.
    cbn [next sc running channel device submitted executed].
    destruct (block_of op dev) as [[u|t] s1] eqn:E.
    + apply (IH (mkSystem sub rest None (ex ++ [op]) Active s1)); reflexivity.
    + rewrite drain_when_stopped; simpl; [auto | discriminate | reflexivity].
Qed.

(** The schedule in which the callers first add [ops] (no more than the
    channel holds) and the worker then takes one block after the other ends
    with the worker, the device and the channel as [run_worker] leaves them
    for the blocks of [ops]; the order of submission is that of [ops]. *)
Theorem add_then_drain_is_run_worker (ops : list Operation) (s0 : State) :
  List.length ops <= capacity ->
  let r := submit_all ops s0 in
  let sy := run_schedule capacity (map CallAdd ops ++ drain (List.length ops)) (start s0) in
  submitted sy = ops /\ sc sy = job_of r /\ device sy = state_of r /\
  map block_of (channel sy) = pending_of r /\ running sy = None.
Proof.
  intros Hlen r sy. subst r sy. unfold submit_all.
  rewrite run_schedule_app, run_schedule_adds by (simpl; lia). simpl.
  destruct (drain_runs_worker ops (mkSystem ops ops None [] Active s0))
    as (H1 & H2 & H3 & H4 & H5); try reflexivity.
  simpl in *. auto.
Qed.

End Schedules.

Lemma witness_dead_after_append_failure :
  let sy := run_schedule 2 [CallAdd (Append "a" 0); WorkerReceive; WorkerFinish]
                         (start (fresh create_denied)) in
  let sy' := run_schedule 2 [CallAdd (Clear 1); WorkerReceive; WorkerFinish] sy in
  sc sy' = Failed (IOException "Unable to create file at path") /\
  executed sy' = executed sy /\ device sy' = device sy.
Proof.
  apply (failed_worker_runs_nothing 2
           [CallAdd (Clear 1); WorkerReceive; WorkerFinish]
           (run_schedule 2 [CallAdd (Append "a" 0); WorkerReceive; WorkerFinish]
                         (start (fresh create_denied)))
           (IOException "Unable to create file at path"));
    reflexivity.
Defined.

Lemma witness_add_two_then_drain :
  let ops := [Append "a" 0; Filter (fun e => negb (is_empty e)) 1] in
  let r := submit_all ops (fresh no_faults) in
  let sy := run_schedule 2 (map CallAdd ops ++ drain 2) (start (fresh no_faults)) in
  submitted sy = ops /\ sc sy = job_of r /\ device sy = state_of r /\
  map block_of (channel sy) = pending_of r /\ running sy = None.
Proof.
  apply (add_then_drain_is_run_worker 2
           [Append "a" 0; Filter (fun e => negb (is_empty e)) 1] (fresh no_faults)).
  simpl. lia.
Defined.

(** ** Entries that hold newlines *)

(** [appendEntry] does not look into the entry.  On a device without
    failures, what [readEntries] returns after it is what it returned
    before, followed by the pieces of the entry between its newlines; on an
    absent or empty file it is just these pieces (none for the empty
    entry).  An entry with newlines is thus read back as several entries. *)
Theorem appendEntry_then_readEntries (d : option string) (entry : string)
    (h : Handler) (i : list (Handler * option Error)) :
  let s := mkState d no_faults i in
  fst (readEntries (snd (appendEntry entry h s)))
  = match fst (readEntries s) with
    | Ok [] => Ok (stringToList entry)
    | Ok before => Ok (before ++ split entry)%list
    | Throw t => Throw t
    end.
Proof.
  intros s. subst s.
  repeat (rewrite ?appendEntry_no_faults, ?readEntries_no_faults; cbn [fst snd text_of]).
  unfold appended. destruct (text_of d) as [|c rest] eqn:E.
  - reflexivity.
  - cbn [is_empty]. rewrite !stringToList_nonempty by reflexivity.
    rewrite split_app_newline.
    destruct (split (String c rest)) as [|w ws] eqn:Es; [|reflexivity].
    exfalso. exact (split_not_nil _ Es).
Qed.

(** ** A cancelled worker that empties the buffer *)

Section Draining.

Variable s0 : State.
Variable capacity : nat.

Lemma serial_next_draining (ev : Event) (sy : System) :
  serial s0 sy -> serial s0 (next_draining capacity ev sy).
Proof.
  intros H. destruct ev as [op| | |];
    try exact (serial_next s0 capacity _ sy H).
  destruct sy as [sub ch run ex job dev]. unfold serial, in_flight in *.
  simpl in *.
  destruct job; simpl; auto; destruct run as [op|]; simpl; auto;
    destruct ch as [|op rest]; simpl; auto.
Qed.

(** The order of execution is that of submission also when a worker that
    [stop] has cancelled goes on taking the blocks it finds in the buffer:
    in every such schedule the finished operations, the one in progress (at
    most one) and those in the channel are the submitted ones in their
    order, and the device is in the state that running the finished ones
    one at a time, in that order, leaves it in. *)
Theorem draining_worker_is_serial_fifo (evs : list Event) :
  let sy := run_schedule_draining capacity evs (start s0) in
  (executed sy ++ in_flight sy ++ channel sy)%list = submitted sy /\
  (List.length (in_flight sy) <= 1)%nat /\
  device sy = run_in_order (executed sy) s0.
Proof.
  intros sy.
  assert (H : serial s0 sy).
  { subst sy. unfold run_schedule_draining.
    generalize (serial_start s0). generalize (start s0).
    induction evs as [|ev rest IH]; intros sy H; simpl; [exact H|].
    apply IH, serial_next_draining, H. }
  destruct H as [Hfifo Hdev].
  split; [exact Hfifo|]. split; [|exact Hdev].
  unfold in_flight. destruct (running sy); simpl; lia.
Qed.

End Draining.

(** With [stop] called while the first of two queued appends is running,
    the cancelled worker still runs the second, after the first. *)
Lemma draining_after_stop :
  let sy := run_schedule_draining 2
              [CallAdd (Append "a" 0); CallAdd (Append "b" 1); WorkerReceive;
               CallStop; WorkerFinish; WorkerReceive; WorkerFinish]
              (start (fresh no_faults)) in
  sc sy = Cancelled /\ executed sy = [Append "a" 0; Append "b" 1] /\
  fst (readEntries (device sy)) = Ok ["a"; "b"].
Proof. repeat split. Qed.

(** ** Execution in the order of submission *)

Section Execution.

Variable s0 : State.
Variable capacity : nat.

Lemma run_schedule_draining_cons (ev : Event) (evs : list Event) (sy : System) :
  run_schedule_draining capacity (ev :: evs) sy
  = run_schedule_draining capacity evs (next_draining capacity ev sy).
Proof. reflexivity. Qed.

Lemma serial_run_schedule_draining (evs : list Event) :
  forall sy, serial s0 sy -> serial s0 (run_schedule_draining capacity evs sy).
Proof.
  induction evs as [|ev rest IH]; intros sy H; [exact H|].
  rewrite run_schedule_draining_cons. apply IH, serial_next_draining, H.
Qed.

(** A worker that has failed and a worker that finds nothing to take stay
    where they are when given their turns. *)
Lemma drain_failed (n : nat) (sy : System) (t : Throwable) :
  sc sy = Failed t -> running sy = None ->
  run_schedule_draining capacity (drain n) sy = sy.
Proof.
  intros Hj Hr. induction n as [|n IH]; [reflexivity|].
  cbn [drain]. rewrite !run_schedule_draining_cons.
  destruct sy as [sub ch run ex job dev]. simpl in Hj, Hr. subst job run.
  exact IH.
Qed.

Lemma drain_idle (n : nat) (sy : System) :
  running sy = None -> channel sy = [] ->
  run_schedule_draining capacity (drain n) sy = sy.
Proof.
  intros Hr Hc. induction n as [|n IH]; [reflexivity|].
  cbn [drain]. rewrite !run_schedule_draining_cons.
  destruct sy as [sub ch run ex job dev]. simpl in Hr, Hc. subst run ch.
  destruct job; exact IH.
Qed.

(** Given its turns, a live worker runs the blocks of the channel from the
    oldest on, one after the other, until the channel is empty or an
    [IOException] leaves an [appendEntry]. *)
Lemma drain_channel (ops : list Operation) :
  forall (sy : System) (extra : nat),
    sc sy = Active -> running sy = None -> channel sy = ops ->
    let sy' := run_schedule_draining capacity (drain (List.length ops + extra)) sy in
    (exists m, sc sy' = Failed (IOException m)) \/
    (sc sy' = Active /\ executed sy' = (executed sy ++ ops)%list /\
     channel sy' = [] /\ running sy' = None /\ submitted sy' = submitted sy).
Proof.
  induction ops as [|op rest IH]; intros sy extra Hj Hr Hc.
  - cbn [List.length Nat.add]. rewrite (drain_idle extra sy Hr Hc), app_nil_r.
    right. auto.
  - destruct sy as [sub ch run ex job dev]. simpl in Hj, Hr, Hc. subst job run ch.
    cbn [List.length Nat.add drain]. rewrite !run_schedule_draining_cons.
    cbn [next_draining next sc running channel device submitted executed].
    destruct (block_of op dev) as [[u|t] s1] eqn:E.
    + destruct (IH (mkSystem sub rest None (ex ++ [op]) Active s1) extra)
        as [Hf|(H1 & H2 & H3 & H4 & H5)]; try reflexivity; [left; exact Hf|].
      right. cbn [executed submitted] in H2, H5.
      rewrite H2, <- app_assoc. auto.
    + destruct (block_throws_is_append op dev s1 t E) as (_ & entry & h & m & _ & Ht).
      subst t. left. exists m.
      rewrite (drain_failed _ _ (IOException m)); reflexivity.
Qed.

Lemma drain_all (sy : System) :
  serial s0 sy -> sc sy = Active ->
  let sy' := run_schedule_draining capacity (drain (S (List.length (channel sy)))) sy in
  (exists m, sc sy' = Failed (IOException m)) \/
  (executed sy' = submitted sy /\ in_flight sy' = [] /\ channel sy' = [] /\
   device sy' = run_in_order (submitted sy) s0).
Proof.
  intros Hs Hj sy'.
  assert (Hs' : serial s0 sy') by (apply serial_run_schedule_draining, Hs).
  assert (Hcases :
            (exists m, sc sy' = Failed (IOException m)) \/
            (executed sy' = (executed sy ++ in_flight sy ++ channel sy)%list /\
             channel sy' = [] /\ running sy' = None)).
  { subst sy'. destruct sy as [sub ch run ex job dev]. simpl in Hj. subst job.
    unfold in_flight. cbn [running channel executed].
    destruct run as [op|].
    - cbn [drain]. rewrite !run_schedule_draining_cons.
      cbn [next_draining next sc running channel device submitted executed].
      destruct (block_of op dev) as [[u|t] s1] eqn:E.
      + pose proof (drain_channel ch (mkSystem sub ch None (ex ++ [op]) Active s1) 0)
          as H.
        rewrite Nat.add_0_r in H.
        destruct H as [Hf|(_ & H2 & H3 & H4 & _)]; try reflexivity; [left; exact Hf|].
        right. cbn [executed] in H2. rewrite H2, <- app_assoc. auto.
      + destruct (block_throws_is_append op dev s1 t E) as (_ & entry & h & m & _ & Ht).
        subst t. left. exists m.
        rewrite (drain_failed _ _ (IOException m)); reflexivity.
    - pose proof (drain_channel ch (mkSystem sub ch None ex Active dev) 1) as H.
      rewrite Nat.add_1_r in H.
      destruct H as [Hf|(_ & H2 & H3 & H4 & _)]; try reflexivity; [left; exact Hf|].
      right. auto. }
  destruct Hcases as [Hf|(H1 & H2 & H3)]; [left; exact Hf|].
  right. destruct Hs as [Hfifo _]. destruct Hs' as [_ Hdev'].
  rewrite Hfifo in H1. unfold in_flight. rewrite H3, Hdev', H1. auto.
Qed.

(** On a device without failures every block returns, and the device stays
    without failures: the worker cannot fail there. *)
Lemma block_of_no_faults (op : Operation) (s : State) :
  faults s = no_faults ->
  exists s', block_of op s = (Ok tt, s') /\ faults s' = no_faults.
Proof.
  destruct s as [d f i]. simpl. intros ->.
  destruct op as [entry h|p h|h]; simpl;
    [rewrite appendEntry_no_faults | rewrite filterEntries_no_faults
     | rewrite clearEntries_no_faults]; eauto.
Qed.

Lemma unfailing_next_draining (ev : Event) (sy : System) :
  unfailing sy -> unfailing (next_draining capacity ev sy).
Proof.
  destruct sy as [sub ch run ex job dev]. unfold unfailing. simpl.
  intros [Hf Hj]. destruct ev as [op| | |]; simpl.
  - destruct (Nat.ltb (List.length ch) capacity); simpl; auto.
  - destruct job; simpl; auto; destruct run as [op|]; simpl; auto;
      destruct ch as [|op rest]; simpl; auto.
  - destruct run as [op|]; simpl; auto.
    destruct (block_of_no_faults op dev Hf) as (s1 & E & Hf1).
    rewrite E. simpl. auto.
  - destruct job; simpl; auto. split; [exact Hf | discriminate].
Qed.

Lemma unfailing_run_schedule_draining (evs : list Event) :
  forall sy, unfailing sy -> unfailing (run_schedule_draining capacity evs sy).
Proof.
  induction evs as [|ev rest IH]; intros sy H; [exact H|].
  rewrite run_schedule_draining_cons. apply IH, unfailing_next_draining, H.
Qed.

End Execution.

(** C9: in every run of the queue (the calls of [add] by any callers, the
    worker's receives and block ends and a call of [stop] interleaved in any
    way, a cancelled worker still taking what it finds in the buffer, and
    for any capacity of the channel) the operations the worker has
    finished, then the one it is in, then those still in the channel are
    the submitted operations in the order of their submission, and the
    device is in the state that running the finished operations one at a
    time, in that order, leaves it in.  And the operations do get executed:
    from any such state in which the worker is alive, once the worker has
    had its turns either an [IOException] has left an [appendEntry] (the
    one way a block ends the loop, and one that needs a device on which
    some access fails), or every operation submitted so far has been
    executed, the worker is in no block, the channel is empty and the
    device is in the state that running all of them one at a time in the
    order of submission leaves it in. *)
Theorem C9_worker_executes_in_fifo_order (s0 : State) (capacity : nat)
    (evs : list Event) :
  let sy := run_schedule_draining capacity evs (start s0) in
  ((executed sy ++ in_flight sy ++ channel sy)%list = submitted sy /\
   device sy = run_in_order (executed sy) s0) /\
  (sc sy = Active ->
   let sy' := run_schedule_draining capacity
                (drain (S (List.length (channel sy)))) sy in
   ((exists m, sc sy' = Failed (IOException m)) /\ faults s0 <> no_faults) \/
   (executed sy' = submitted sy /\ in_flight sy' = [] /\ channel sy' = [] /\
    device sy' = run_in_order (submitted sy) s0)).
Proof.
  intros sy.
  assert (Hs : serial s0 sy)
    by (apply serial_run_schedule_draining, serial_start).
  split; [exact Hs|].
  intros Hj sy'.
  destruct (drain_all s0 capacity sy Hs Hj) as [[m Hm]|Hdone]; [left | right; exact Hdone].
  split; [exists m; exact Hm|].
  intros Hnf.
  assert (Hu : unfailing sy').
  { apply unfailing_run_schedule_draining, unfailing_run_schedule_draining.
    split; [exact Hnf | discriminate]. }
  destruct Hu as [_ Hu]. exact (Hu _ Hm).
Qed.

Lemma C9_witness_two_callers :
  let evs := [CallAdd (Append "a" 0); WorkerReceive; CallAdd (Clear 1);
              CallAdd (Append "b" 2)] in
  let sy := run_schedule_draining 4 evs (start (fresh no_faults)) in
  let sy' := run_schedule_draining 4 (drain (S (List.length (channel sy)))) sy in
  sc sy = Active /\
  executed sy' = [Append "a" 0; Clear 1; Append "b" 2] /\
  in_flight sy' = [] /\ channel sy' = [] /\
  device sy' = run_in_order [Append "a" 0; Clear 1; Append "b" 2] (fresh no_faults).
Proof.
  split; [reflexivity|].
  destruct (C9_worker_executes_in_fifo_order (fresh no_faults) 4
              [CallAdd (Append "a" 0); WorkerReceive; CallAdd (Clear 1);
               CallAdd (Append "b" 2)]) as [_ H].
  destruct (H eq_refl) as [[[m Hm] _]|H']; [discriminate Hm | exact H'].
Defined.
